(** * timeout_helper.rate_limit: a shallow embedding and its properties

    Source: DevContainerTemplates/codebox/api-tools/helpers/timeout_helper.py

    The helper divides 60.0 by the configured ceiling, reads the clock,
    sleeps when the previous request is too recent and returns a fresh
    clock reading.  Its only effects are calls to [time.time()] and
    [time.sleep()], so the function is embedded as a program over these
    two primitives and run against an explicit model of the clock.

    Numbers.  [max_requests_per_minute] is a Python [int], embedded as
    [Z].  Timestamps and durations are Python floats; they are idealised
    here as exact rationals [Q] (no rounding, no overflow, no infinities,
    no NaN), and
    numeric equality of two floats is [Qeq]. *)

From Stdlib Require Import ZArith QArith Lqa Lia String List.
Import ListNotations.

Local Open Scope string_scope.
Local Open Scope list_scope.
Local Open Scope Q_scope.

(** ** Programs over the [time] module *)

(** The name of a Python exception class. *)
Definition exception := string.

(** How a call ends: with a value, or with an exception propagating to the
    caller. *)
Inductive outcome (A : Type) : Type :=
| Returned (a : A)
| Raised (exc : exception).
Arguments Returned {A} a.
Arguments Raised {A} exc.

(** A Python computation whose only interaction with the outside is
    through [time.time()] and [time.sleep(secs)]. *)
Inductive py (A : Type) : Type :=
| Ret (a : A)
| Raise (exc : exception)
| CallTime (k : Q -> py A)
| CallSleep (secs : Q) (k : py A).
Arguments Ret {A} a.
Arguments Raise {A} exc.
Arguments CallTime {A} k.
Arguments CallSleep {A} secs k.

Fixpoint bind {A B : Type} (p : py A) (f : A -> py B) : py B :=
  match p with
  | Ret a => f a
  | Raise exc => Raise exc
  | CallTime k => CallTime (fun t => bind (k t) f)
  | CallSleep secs k => CallSleep secs (bind k f)
  end.

Notation "x <- c ;; k" := (bind c (fun x => k))
  (at level 61, c at next level, right associativity).
Notation "c ;; k" := (bind c (fun _ => k))
  (at level 61, right associativity).

Module time.

(** [time.time()] *)
Definition time : py Q := CallTime Ret.

(** [time.sleep(secs)] *)
Definition sleep (secs : Q) : py unit := CallSleep secs (Ret tt).

End time.

(** ** The source function *)

(** [x / n] for a float [x] and an int [n]: true division raises
    [ZeroDivisionError] on a zero divisor. *)
Definition truediv (x : Q) (n : Z) : py Q :=
  if (n =? 0)%Z then Raise "ZeroDivisionError" else Ret (x / inject_Z n).

(** Line 25: [min_interval = 60.0 / max_requests_per_minute]. *)
Definition min_interval (max_requests_per_minute : Z) : py Q :=
  truediv 60 max_requests_per_minute.

(** Default of the parameter [last_request_time]. *)
Definition first_request : Q := 0.

(** [def rate_limit(max_requests_per_minute: int,
                    last_request_time: float = 0) -> float] *)
Definition rate_limit (max_requests_per_minute : Z) (last_request_time : Q)
  : py Q :=
  min_interval <- min_interval max_requests_per_minute ;;
  now <- time.time ;;
  let elapsed := now - last_request_time in
  (if Qlt_le_dec elapsed min_interval
   then time.sleep (min_interval - elapsed)
   else Ret tt) ;;
  time.time.

(** The loop of the docstring's usage example, run for [n] items:
[[
    for item in items:
        last_time = rate_limit(R, last_time)
        make_api_call()
]]
    It returns the successive values of [last_time].  The API call is
    external; the time it takes is part of the clock model below. *)
Fixpoint usage (max_requests_per_minute : Z) (n : nat) (last_time : Q)
  : py (list Q) :=
  match n with
  | O => Ret []
  | S n' =>
      last_time' <- rate_limit max_requests_per_minute last_time ;;
      rest <- usage max_requests_per_minute n' last_time' ;;
      Ret (last_time' :: rest)
  end.

(** ** Environments *)

(** An environment answers the two primitives over a state of its own. *)
Record env (S : Type) : Type := Env {
  on_time : S -> Q * S;
  on_sleep : Q -> S -> outcome unit * S
}.
Arguments Env {S} on_time on_sleep.
Arguments on_time {S} e s.
Arguments on_sleep {S} e secs s.

Fixpoint exec {S A : Type} (E : env S) (p : py A) (s : S) : outcome A * S :=
  match p with
  | Ret a => (Returned a, s)
  | Raise exc => (Raised exc, s)
  | CallTime k => let (t, s') := on_time E s in exec E (k t) s'
  | CallSleep secs k =>
      match on_sleep E secs s with
      | (Returned _, s') => exec E k s'
      | (Raised exc, s') => (Raised exc, s')
      end
  end.

(** Two environments answer alike from states related by [same]: the
    clock readings agree, the sleeps end alike, and the states they lead
    to are related again. *)
Definition answer_alike {S1 S2 : Type} (E1 : env S1) (E2 : env S2)
    (same : S1 -> S2 -> Prop) : Prop :=
  (forall s1 s2, same s1 s2 ->
     fst (on_time E1 s1) = fst (on_time E2 s2) /\
     same (snd (on_time E1 s1)) (snd (on_time E2 s2))) /\
  (forall secs s1 s2, same s1 s2 ->
     fst (on_sleep E1 secs s1) = fst (on_sleep E2 secs s2) /\
     same (snd (on_sleep E1 secs s1)) (snd (on_sleep E2 secs s2))).

(** The environment [E] next to some other state [X] of the process, which
    the two primitives do not touch. *)
Definition beside {S : Type} (X : Type) (E : env S) : env (S * X) :=
  {| on_time := fun sx => (fst (on_time E (fst sx)),
                            (snd (on_time E (fst sx)), snd sx));
     on_sleep := fun secs sx => (fst (on_sleep E secs (fst sx)),
                                 (snd (on_sleep E secs (fst sx)), snd sx)) |}.

(** ** The wall clock *)

Inductive event : Type :=
| Time (reading : Q)
| Sleep (secs : Q).

(** [clock] is the current time in seconds; [lags] lists the extra time
    each coming primitive call takes before control is back in the caller
    (scheduling, oversleeping, the caller's own work), none when the list
    is exhausted; [log] records the primitive calls made so far, oldest
    first. *)
Record world : Type := World {
  clock : Q;
  lags : list Q;
  log : list event
}.

Definition lag (w : world) : Q := hd 0 (lags w).

(** A primitive call [e] that takes [dt] seconds plus the current lag. *)
Definition tick (dt : Q) (e : event) (w : world) : world :=
  {| clock := clock w + dt + lag w;
     lags := tl (lags w);
     log := log w ++ [e] |}.

(** [time.time()] returns the clock; [time.sleep(secs)] rejects a negative
    argument with [ValueError] and otherwise blocks for at least [secs]. *)
Definition wall_clock : env world :=
  {| on_time := fun w => (clock w, tick 0 (Time (clock w)) w);
     on_sleep := fun secs w =>
       if Qlt_le_dec secs 0
       then (Raised "ValueError",
             {| clock := clock w; lags := lags w;
                log := log w ++ [Sleep secs] |})
       else (Returned tt, tick secs (Sleep secs) w) |}.

(** Time does not run backwards: no coming call takes negative time. *)
Definition flows_forward (w : world) : Prop :=
  Forall (fun l => 0 <= l) (lags w).

(** The durations of the sleeps recorded in a log. *)
Fixpoint sleeps (l : list event) : list Q :=
  match l with
  | [] => []
  | Time _ :: l' => sleeps l'
  | Sleep secs :: l' => secs :: sleeps l'
  end.

(** Running [rate_limit] against the wall clock. *)
Definition run (max_requests_per_minute : Z) (last_request_time : Q)
    (w : world) : outcome Q * world :=
  exec wall_clock (rate_limit max_requests_per_minute last_request_time) w.

(** Running the usage loop against the wall clock. *)
Definition run_usage (max_requests_per_minute : Z) (n : nat) (last_time : Q)
    (w : world) : outcome (list Q) * world :=
  exec wall_clock (usage max_requests_per_minute n last_time) w.

(** Consecutive timestamps are at least [gap] apart. *)
Fixpoint spaced (gap : Q) (ts : list Q) : Prop :=
  match ts with
  | t :: (t' :: _) as rest => t + gap <= t' /\ spaced gap rest
  | _ => True
  end.

(** The world after the first clock reading. *)
Definition entered (w : world) : world := tick 0 (Time (clock w)) w.

(** The world after sleeping [d] seconds. *)
Definition slept (d : Q) (w : world) : world := tick d (Sleep d) (entered w).

(** The final clock reading ends the call. *)
Definition returning (w : world) : outcome Q * world :=
  (Returned (clock w), tick 0 (Time (clock w)) w).

(** Every [time.sleep] call a program can make, whatever the clock
    answers, has a strictly positive argument. *)
Fixpoint sleeps_positive {A : Type} (p : py A) : Prop :=
  match p with
  | Ret _ | Raise _ => True
  | CallTime k => forall t, sleeps_positive (k t)
  | CallSleep secs k => 0 < secs /\ sleeps_positive k
  end.

(** Two wall clocks with the same time and the same lags ahead, whatever
    their logs. *)
Definition same_time (w1 w2 : world) : Prop :=
  clock w1 = clock w2 /\ lags w1 = lags w2.

(** [a <= t < a + 60]: the timestamp [t] falls in the minute that starts
    at [a]. *)
Definition in_minute (a t : Q) : bool :=
  Qle_bool a t && negb (Qle_bool (a + 60) t).

(** Consecutive timestamps are exactly [gap] apart. *)
Fixpoint paced (gap : Q) (ts : list Q) : Prop :=
  match ts with
  | t :: (t' :: _) as rest => t' == t + gap /\ paced gap rest
  | _ => True
  end.

(** The time the coming primitive calls will take on top of their sleeps. *)
Definition total_lag (w : world) : Q := fold_right Qplus 0 (lags w).

(** * Properties *)

(** ** Running programs: general facts *)

Lemma exec_bind {S A B : Type} (E : env S) (p : py A) (f : A -> py B) (s : S) :
  exec E (bind p f) s =
  match exec E p s with
  | (Returned a, s') => exec E (f a) s'
  | (Raised exc, s') => (Raised exc, s')
  end.
Proof.
  revert s.
  induction p as [a | exc | k IH | secs k IH]; intros s; simpl.
  - reflexivity.
  - reflexivity.
  - destruct (on_time E s) as [t s']. apply IH.
  - destruct (on_sleep E secs s) as [[[] | exc] s']; [apply IH | reflexivity].
Qed.

Lemma flows_forward_tick dt e w : flows_forward w -> flows_forward (tick dt e w).
Proof.
  unfold flows_forward, tick; simpl.
  destruct (lags w) as [| l ls]; simpl; intros H.
  - constructor.
  - now inversion H.
Qed.

Lemma lag_nonneg w : flows_forward w -> 0 <= lag w.
Proof.
  unfold flows_forward, lag.
  destruct (lags w) as [| l ls]; simpl; intros H.
  - lra.
  - now inversion H.
Qed.

Lemma sleeps_app l1 l2 : sleeps (l1 ++ l2) = sleeps l1 ++ sleeps l2.
Proof.
  induction l1 as [| [t | d] l1 IH]; simpl; [reflexivity | exact IH | now rewrite IH].
Qed.

(** ** The three paths through [rate_limit] *)

Lemma run_zero t0 w : run 0 t0 w = (Raised "ZeroDivisionError", w).
Proof. reflexivity. Qed.

Lemma run_waits R t0 w :
  R <> 0%Z ->
  clock w - t0 < 60 / inject_Z R ->
  run R t0 w = returning (slept (60 / inject_Z R - (clock w - t0)) w).
Proof.
  intros HR Hlt. unfold run, rate_limit, min_interval, truediv.
  destruct (Z.eqb_spec R 0) as [-> | _]; [congruence |].
  simpl. destruct (Qlt_le_dec (clock w - t0) (60 / inject_Z R)) as [_ | Hge]; [| lra].
  simpl. destruct (Qlt_le_dec (60 / inject_Z R - (clock w - t0)) 0) as [Hneg | _]; [lra |].
  reflexivity.
Qed.

Lemma run_passes R t0 w :
  R <> 0%Z ->
  60 / inject_Z R <= clock w - t0 ->
  run R t0 w = returning (entered w).
Proof.
  intros HR Hge. unfold run, rate_limit, min_interval, truediv.
  destruct (Z.eqb_spec R 0) as [-> | _]; [congruence |].
  simpl. destruct (Qlt_le_dec (clock w - t0) (60 / inject_Z R)) as [Hlt | _]; [lra |].
  reflexivity.
Qed.

Lemma interval_pos R : (0 < R)%Z -> 0 < 60 / inject_Z R.
Proof.
  intros HR. apply Qlt_shift_div_l.
  - change 0 with (inject_Z 0). now rewrite <- Zlt_Qlt.
  - lra.
Qed.

Lemma interval_neg R : (R < 0)%Z -> 60 / inject_Z R < 0.
Proof.
  intros HR.
  assert (H : 0 < 60 / inject_Z (- R)) by (apply interval_pos; lia).
  rewrite inject_Z_opp in H.
  assert (E : 60 / - inject_Z R == - (60 / inject_Z R)).
  { assert (N : ~ inject_Z R == 0).
    { change 0 with (inject_Z 0). rewrite inject_Z_injective. lia. }
    field. exact N. }
  rewrite E in H. lra.
Qed.

(** What one call guarantees when the ceiling is positive and time flows
    forward; the loop's invariant rests on it. *)
Lemma rate_limit_call R t0 w :
  (0 < R)%Z -> flows_forward w ->
  exists r w',
    run R t0 w = (Returned r, w') /\ flows_forward w' /\
    clock w <= r /\ t0 + 60 / inject_Z R <= r /\ r <= clock w'.
Proof.
  intros HR Hw.
  assert (HR0 : R <> 0%Z) by lia.
  pose proof (lag_nonneg w Hw) as L0.
  pose proof (lag_nonneg _ (flows_forward_tick 0 (Time (clock w)) w Hw)) as L1.
  fold (entered w) in L1.
  destruct (Qlt_le_dec (clock w - t0) (60 / inject_Z R)) as [Hlt | Hge].
  - rewrite (run_waits R t0 w HR0 Hlt). unfold returning.
    set (d := 60 / inject_Z R - (clock w - t0)).
    pose proof (lag_nonneg _ (flows_forward_tick d (Sleep d) _
                  (flows_forward_tick 0 (Time (clock w)) w Hw))) as L2.
    fold (entered w) in L2. fold (slept d w) in L2.
    eexists _, _. split; [reflexivity |].
    split; [repeat apply flows_forward_tick; exact Hw |].
    unfold slept, entered in *. simpl in *. subst d. repeat split; lra.
  - rewrite (run_passes R t0 w HR0 Hge). unfold returning.
    eexists _, _. split; [reflexivity |].
    split; [repeat apply flows_forward_tick; exact Hw |].
    unfold entered in *. simpl in *. repeat split; lra.
Qed.

(** ** Worked examples *)

(** [rate_limit(60)] and then a second call fed with the first one's
    return value: the first call does not wait, the second sleeps one
    second. *)
Example back_to_back :
  run_usage 60 2 first_request (World 1700000000 [] []) =
  (Returned [1700000000; 102000000060 # 60],
   {| clock := 102000000060 # 60;
      lags := [];
      log := [Time 1700000000; Time 1700000000; Time 1700000000;
              Sleep (60 # 60); Time (102000000060 # 60)] |}).
Proof. reflexivity. Qed.

(** [rate_limit(120, <5 seconds ago>)]: no wait. *)
Example five_seconds_ago :
  run 120 (1700000000 - 5) (World 1700000000 [] []) =
  (Returned 1700000000,
   {| clock := 1700000000;
      lags := [];
      log := [Time 1700000000; Time 1700000000] |}).
Proof. reflexivity. Qed.

(** ** Error conditions *)




(** ** The two timing paths *)





(** ** The loop *)

Lemma inject_Z_succ_nat n :
  inject_Z (Z.of_nat (S n)) == inject_Z (Z.of_nat n) + 1.
Proof. rewrite Nat2Z.inj_succ, <- Z.add_1_r, inject_Z_plus. reflexivity. Qed.

(** The invariant of the loop: starting from [last_time = t0], after [n]
    calls the returned timestamps continue [t0] with gaps of at least
    [60/R], none precedes the start of the loop, and the clock stands at
    least [n] intervals after [t0]. *)
Lemma usage_invariant R n :
  (0 < R)%Z ->
  forall t0 w, flows_forward w ->
  exists ts w',
    run_usage R n t0 w = (Returned ts, w') /\ flows_forward w' /\
    length ts = n /\ spaced (60 / inject_Z R) (t0 :: ts) /\
    Forall (fun t => clock w <= t) ts /\
    clock w <= clock w' /\
    (n <> O -> t0 + inject_Z (Z.of_nat n) * (60 / inject_Z R) <= clock w').
Proof.
  intros HR. pose proof (interval_pos R HR) as Hgap.
  induction n as [| n IH]; intros t0 w Hw.
  - exists [], w. simpl. repeat split; try easy; lra.
  - destruct (rate_limit_call R t0 w HR Hw)
      as (r & w1 & Hrun & Hw1 & Hnow & Hgap1 & Hclk).
    destruct (IH r w1 Hw1) as (ts & w' & Hrest & Hw' & Hlen & Hsp & Hall & Hmono & Hfar).
    exists (r :: ts), w'.
    unfold run_usage in *. unfold run in Hrun. cbn [usage].
    rewrite exec_bind, Hrun, exec_bind, Hrest. simpl exec.
    split; [reflexivity |]. split; [exact Hw' |].
    split; [simpl; now rewrite Hlen |].
    split; [simpl; split; [exact Hgap1 | exact Hsp] |].
    split.
    { constructor; [exact Hnow |].
      eapply Forall_impl; [| exact Hall]. simpl. intros t Ht. lra. }
    split; [lra |].
    intros _. rewrite inject_Z_succ_nat.
    destruct n as [| n].
    + change (inject_Z (Z.of_nat 0)) with 0. lra.
    + specialize (Hfar (Nat.neq_succ_0 n)).
      set (k := inject_Z (Z.of_nat (S n))) in *.
      set (g := 60 / inject_Z R) in *.
      setoid_replace ((k + 1) * g) with (k * g + g) by ring. lra.
Qed.



(** ** The interval *)

(** C5: for a positive ceiling the interval computed on the first line is
    [60.0 / max_requests_per_minute], it is the time a call sleeps when no
    time at all has elapsed since the last request, and for the ceiling
    [60] it is one second. *)
Theorem rate_limit_min_interval R w :
  (0 < R)%Z ->
  min_interval R = Ret (60 / inject_Z R) /\
  sleeps (log (snd (run R (clock w) w))) =
    sleeps (log w) ++ [60 / inject_Z R - (clock w - clock w)] /\
  exists one_second, min_interval 60 = Ret one_second /\ one_second == 1.
Proof.
  intros HR. repeat split.
  - unfold min_interval, truediv.
    destruct (Z.eqb_spec R 0) as [-> | _]; [lia | reflexivity].
  - pose proof (interval_pos R HR) as Hgap.
    rewrite run_waits by (lia || lra).
    simpl. now rewrite !sleeps_app, !app_nil_r.
  - eexists. split; reflexivity.
Qed.

Lemma rate_limit_min_interval_witness :
  min_interval 90 = Ret (60 / inject_Z 90) /\
  sleeps (log (snd (run 90 (clock (World 1000 [] [])) (World 1000 [] [])))) =
    sleeps [] ++ [60 / inject_Z 90 - (1000 - 1000)] /\
  exists one_second, min_interval 60 = Ret one_second /\ one_second == 1.
Proof. apply (rate_limit_min_interval 90 (World 1000 [] [])). lia. Defined.

(** ** The sentinel *)

(** C6, as stated, fails on the code: ten seconds after the epoch, a first
    call ([last_request_time = 0]) under a ceiling of one request per
    minute sleeps fifty seconds. *)
Lemma sentinel_call_sleeps :
  sleeps (log (snd (run 1 first_request (World 10 [] [])))) = [50].
Proof. reflexivity. Qed.

(** C6, amended: for a positive ceiling [R], a call with the sentinel
    [last_request_time = 0] does not sleep whenever the clock reads at
    least [60/R] at entry, and so whenever it reads at least [60]. *)
Theorem rate_limit_sentinel R w :
  (0 < R)%Z ->
  60 / inject_Z R <= clock w \/ 60 <= clock w ->
  sleeps (log (snd (run R first_request w))) = sleeps (log w).
Proof.
  intros HR H.
  assert (Hge : 60 / inject_Z R <= clock w).
  { destruct H as [H | H]; [exact H |].
    assert (H1 : 1 <= inject_Z R).
    { change 1 with (inject_Z 1). rewrite <- Zle_Qle. lia. }
    assert (H60 : 60 / inject_Z R <= 60) by (apply Qle_shift_div_r; lra).
    lra. }
  rewrite run_passes by (lia || (unfold first_request; lra)).
  simpl. now rewrite !sleeps_app, !app_nil_r.
Qed.

Lemma rate_limit_sentinel_witness :
  sleeps (log (snd (run 90 first_request (World 1700000000 [] [Time 5])))) =
    sleeps [Time 5].
Proof.
  apply (rate_limit_sentinel 90 (World 1700000000 [] [Time 5])).
  - lia.
  - right. discriminate.
Defined.

(** ** Negative ceilings and future timestamps *)





(** ** Sleep arguments *)

Lemma exec_sleeps_positive {A : Type} (p : py A) :
  sleeps_positive p ->
  forall w d,
    In d (sleeps (log (snd (exec wall_clock p w)))) ->
    In d (sleeps (log w)) \/ 0 < d.
Proof.
  induction p as [a | exc | k IH | secs k IH]; simpl; intros Hp w d Hd.
  - now left.
  - now left.
  - apply (IH _ (Hp (clock w))) in Hd. simpl in Hd.
    rewrite sleeps_app, app_nil_r in Hd. exact Hd.
  - destruct Hp as [Hsecs Hk].
    destruct (Qlt_le_dec secs 0) as [Hneg | _]; [lra |].
    apply (IH Hk) in Hd. simpl in Hd.
    rewrite sleeps_app in Hd. destruct Hd as [Hd | Hd]; [| now right].
    apply in_app_or in Hd. destruct Hd as [Hd | [<- | []]]; [now left | now right].
Qed.

Lemma rate_limit_sleeps_positive R t0 : sleeps_positive (rate_limit R t0).
Proof.
  unfold rate_limit, min_interval, truediv.
  destruct (R =? 0)%Z; simpl; [exact I |].
  intros t. destruct (Qlt_le_dec (t - t0) (60 / inject_Z R)) as [Hlt | _]; simpl.
  - split; [lra | exact (fun _ => I)].
  - exact (fun _ => I).
Qed.

(** C10: whenever [rate_limit] calls [time.sleep], for any ceiling, any
    last request time and any clock, the argument is strictly positive:
    this holds of every sleep call in the program, and so of every sleep
    a run adds to the log. *)
Theorem rate_limit_sleep_argument_positive R t0 :
  sleeps_positive (rate_limit R t0) /\
  forall w d,
    In d (sleeps (log (snd (run R t0 w)))) ->
    In d (sleeps (log w)) \/ 0 < d.
Proof.
  split; [apply rate_limit_sleeps_positive |].
  intros w d. apply exec_sleeps_positive, rate_limit_sleeps_positive.
Qed.

Lemma rate_limit_sleep_argument_positive_witness :
  In (60 / inject_Z (-60) - (1000 - 1003)) (sleeps [Sleep (-1)]) \/
  0 < 60 / inject_Z (-60) - (1000 - 1003).
Proof.
  apply (proj2 (rate_limit_sleep_argument_positive (-60) 1003)
               (World 1000 [] [Sleep (-1)])).
  right. left. reflexivity.
Defined.

(** ** Statelessness *)

Lemma exec_alike {S1 S2 A : Type} (E1 : env S1) (E2 : env S2)
    (same : S1 -> S2 -> Prop) (p : py A) :
  answer_alike E1 E2 same ->
  forall s1 s2, same s1 s2 ->
    fst (exec E1 p s1) = fst (exec E2 p s2) /\
    same (snd (exec E1 p s1)) (snd (exec E2 p s2)).
Proof.
  intros [Htime Hsleep].
  induction p as [a | exc | k IH | secs k IH]; intros s1 s2 Hs; simpl.
  - now split.
  - now split.
  - destruct (Htime s1 s2 Hs) as [Ht Hs'].
    destruct (on_time E1 s1) as [t1 s1'], (on_time E2 s2) as [t2 s2'].
    simpl in Ht, Hs'. subst t2. now apply IH.
  - destruct (Hsleep secs s1 s2 Hs) as [Ho Hs'].
    destruct (on_sleep E1 secs s1) as [o1 s1'], (on_sleep E2 secs s2) as [o2 s2'].
    simpl in Ho, Hs'. subst o2. destruct o1 as [[] | exc].
    + now apply IH.
    + now split.
Qed.

Lemma beside_alike {S X : Type} (E : env S) (x : X) :
  answer_alike E (beside X E) (fun s sx => sx = (s, x)).
Proof. split; intros; subst; simpl; split; reflexivity. Qed.


Lemma wall_clock_same_time : answer_alike wall_clock wall_clock same_time.
Proof.
  unfold same_time, lag.
  split; [intros s1 s2 [Hc Hl] | intros secs s1 s2 [Hc Hl]]; simpl.
  - unfold lag. now rewrite Hc, Hl.
  - destruct (Qlt_le_dec secs 0); simpl; unfold lag; now rewrite Hc, Hl.
Qed.


(** * Further properties *)

(** ** Lists of spaced timestamps *)

Lemma spaced_tail gap t ts : spaced gap (t :: ts) -> spaced gap ts.
Proof. destruct ts as [| t' ts]; simpl; [trivial | now intros [_ H]]. Qed.

(** In a spaced list every later timestamp is at least one gap after the
    first. *)
Lemma spaced_head gap t ts :
  0 <= gap -> spaced gap (t :: ts) -> Forall (fun t' => t + gap <= t') ts.
Proof.
  intros Hgap. revert t.
  induction ts as [| t' ts IH]; intros t H; [constructor |].
  destruct H as [Ht H]. constructor; [exact Ht |].
  eapply Forall_impl; [| exact (IH t' H)].
  simpl. intros u Hu. lra.
Qed.

Lemma spaced_cons gap t ts :
  Forall (fun t' => t + gap <= t') ts -> spaced gap ts -> spaced gap (t :: ts).
Proof.
  destruct ts as [| t' ts]; simpl; [trivial |].
  intros H Hs. inversion H; subst. now split.
Qed.

(** Dropping timestamps from a spaced list leaves it spaced. *)
Lemma spaced_filter gap f ts :
  0 <= gap -> spaced gap ts -> spaced gap (filter f ts).
Proof.
  intros Hgap. induction ts as [| t ts IH]; intros H; [exact I |].
  pose proof (spaced_head gap t ts Hgap H) as Hall.
  specialize (IH (spaced_tail gap t ts H)).
  simpl. destruct (f t); [| exact IH].
  apply spaced_cons; [| exact IH].
  apply Forall_forall. intros u Hu. apply filter_In in Hu.
  rewrite Forall_forall in Hall. now apply Hall.
Qed.

Lemma last_cons {A : Type} (x d : A) l : last (x :: l) d = last l x.
Proof.
  revert x d. induction l as [| u l IH]; intros x d; [reflexivity |].
  change (last (x :: u :: l) d) with (last (u :: l) d).
  now rewrite (IH u d), (IH u x).
Qed.

Lemma last_In {A : Type} (x : A) l : In (last l x) (x :: l).
Proof.
  revert x. induction l as [| u l IH]; intros x; [now left |].
  rewrite last_cons. right. apply IH.
Qed.

(** A spaced list spans at least one gap per step. *)
Lemma spaced_span gap t ts :
  spaced gap (t :: ts) ->
  t + inject_Z (Z.of_nat (length ts)) * gap <= last ts t.
Proof.
  revert t. induction ts as [| t' ts IH]; intros t H.
  - simpl. change (inject_Z 0) with 0. lra.
  - destruct H as [Ht H]. specialize (IH t' H).
    change (length (t' :: ts)) with (S (length ts)).
    rewrite inject_Z_succ_nat.
    set (k := inject_Z (Z.of_nat (length ts))) in *.
    setoid_replace ((k + 1) * gap) with (k * gap + gap) by ring.
    rewrite last_cons. lra.
Qed.

Lemma in_minute_spec a t : in_minute a t = true <-> a <= t /\ t < a + 60.
Proof.
  unfold in_minute. rewrite Bool.andb_true_iff, Bool.negb_true_iff, Qle_bool_iff.
  split; intros [H1 H2]; split; try exact H1.
  - apply Qnot_le_lt. intros H. apply Qle_bool_iff in H. congruence.
  - destruct (Qle_bool (a + 60) t) eqn:E; [| reflexivity].
    apply Qle_bool_iff in E. lra.
Qed.

(** At most [R] timestamps spaced by [60/R] fall within one minute. *)
Lemma spaced_within_minute R a ts :
  (0 < R)%Z ->
  spaced (60 / inject_Z R) ts ->
  Forall (fun t => a <= t /\ t < a + 60) ts ->
  (length ts <= Z.to_nat R)%nat.
Proof.
  intros HR Hs Hin.
  destruct ts as [| t ts]; [simpl; lia |].
  pose proof (spaced_span _ t ts Hs) as Hspan.
  assert (Hlast : last ts t < a + 60).
  { rewrite Forall_forall in Hin. apply Hin, last_In. }
  assert (Hfirst : a <= t) by (inversion Hin; subst; tauto).
  simpl length.
  destruct (Z_lt_le_dec (Z.of_nat (length ts)) R) as [Hlt | Hge]; [lia |].
  exfalso.
  assert (HRq : 0 < inject_Z R).
  { change 0 with (inject_Z 0). now rewrite <- Zlt_Qlt. }
  pose proof (interval_pos R HR) as Hgap.
  assert (Hk : inject_Z R <= inject_Z (Z.of_nat (length ts))) by now rewrite <- Zle_Qle.
  assert (H60 : inject_Z R * (60 / inject_Z R) == 60) by (field; lra).
  assert (Hmul : inject_Z R * (60 / inject_Z R) <=
                 inject_Z (Z.of_nat (length ts)) * (60 / inject_Z R)).
  { apply Qmult_le_compat_r; [exact Hk | lra]. }
  lra.
Qed.

Lemma spaced_step gap ts :
  spaced gap ts ->
  forall j, (S j < length ts)%nat -> nth j ts 0 + gap <= nth (S j) ts 0.
Proof.
  induction ts as [| t ts IH]; intros Hs j Hj; [simpl in Hj; lia |].
  destruct j as [| j].
  - destruct ts as [| t' ts]; [simpl in Hj; lia |]. exact (proj1 Hs).
  - change (nth j ts 0 + gap <= nth (S j) ts 0).
    apply IH; [exact (spaced_tail gap t ts Hs) | simpl in Hj; lia].
Qed.

Lemma spaced_nth gap ts :
  spaced gap ts ->
  forall i k, (i + k < length ts)%nat ->
    nth i ts 0 + inject_Z (Z.of_nat k) * gap <= nth (i + k) ts 0.
Proof.
  intros Hs i k. induction k as [| k IH]; intros Hik.
  - rewrite Nat.add_0_r. change (inject_Z (Z.of_nat 0)) with 0. lra.
  - rewrite inject_Z_succ_nat, Nat.add_succ_r.
    pose proof (spaced_step gap ts Hs (i + k)%nat ltac:(lia)) as Hstep.
    specialize (IH ltac:(lia)).
    set (q := inject_Z (Z.of_nat k)) in *.
    setoid_replace ((q + 1) * gap) with (q * gap + gap) by ring. lra.
Qed.

(** ** The rate the loop keeps *)





(** ** How long a call waits *)





(** ** A negative ceiling in the loop *)

Lemma usage_negative_invariant R n :
  (R < 0)%Z ->
  forall t0 w, flows_forward w -> t0 <= clock w ->
  exists ts w',
    run_usage R n t0 w = (Returned ts, w') /\
    length ts = n /\ sleeps (log w') = sleeps (log w).
Proof.
  intros HR. pose proof (interval_neg R HR) as Hneg.
  induction n as [| n IH]; intros t0 w Hw Ht0.
  - exists [], w. now repeat split.
  - assert (Hrun : run R t0 w = returning (entered w))
      by (apply run_passes; [lia | lra]).
    pose proof (flows_forward_tick 0 (Time (clock w)) w Hw) as Hw1.
    fold (entered w) in Hw1.
    pose proof (lag_nonneg _ Hw1) as L1.
    set (r := clock (entered w)) in *.
    set (w1 := tick 0 (Time r) (entered w)).
    destruct (IH r w1) as (ts & w' & Hrest & Hlen & Hsl).
    { apply flows_forward_tick, Hw1. }
    { change (r <= r + 0 + lag (entered w)). lra. }
    exists (r :: ts), w'.
    unfold run_usage in *. unfold run, returning in Hrun. cbn [usage].
    rewrite exec_bind, Hrun, exec_bind. fold r w1. rewrite Hrest. simpl exec.
    split; [reflexivity |]. split; [simpl; now rewrite Hlen |].
    rewrite Hsl. unfold w1, entered, tick; simpl.
    now rewrite !sleeps_app, !app_nil_r.
Qed.



(** ** A caller faster than the ceiling *)

(** With no latency anywhere, a call made at the very time of the last
    request waits one whole interval and leaves the clock at the value it
    returns. *)
Lemma rate_limit_call_at_once R t0 w :
  (0 < R)%Z -> lags w = [] -> clock w == t0 ->
  exists r w',
    run R t0 w = (Returned r, w') /\
    r == t0 + 60 / inject_Z R /\ lags w' = [] /\ clock w' == r.
Proof.
  intros HR Hl Hc. pose proof (interval_pos R HR) as Hgap.
  rewrite run_waits by (lia || lra). unfold returning.
  eexists _, _. split; [reflexivity |].
  unfold slept, entered, tick, lag. simpl. rewrite Hl. simpl.
  repeat split; try reflexivity; ring_simplify; lra.
Qed.

Lemma usage_paced_invariant R n :
  (0 < R)%Z ->
  forall t0 w, lags w = [] -> clock w == t0 ->
  exists ts w',
    run_usage R n t0 w = (Returned ts, w') /\
    length ts = n /\ paced (60 / inject_Z R) (t0 :: ts).
Proof.
  intros HR. induction n as [| n IH]; intros t0 w Hl Hc.
  - exists [], w. now repeat split.
  - destruct (rate_limit_call_at_once R t0 w HR Hl Hc)
      as (r & w1 & Hrun & Hr & Hl1 & Hc1).
    destruct (IH r w1 Hl1 Hc1) as (ts & w' & Hrest & Hlen & Hp).
    exists (r :: ts), w'.
    unfold run_usage in *. unfold run in Hrun. cbn [usage].
    rewrite exec_bind, Hrun, exec_bind, Hrest. simpl exec.
    split; [reflexivity |]. split; [simpl; now rewrite Hlen |].
    split; [exact Hr | exact Hp].
Qed.



(** ** How long the loop takes *)

(** Each primitive call moves the clock by its own duration and uses up
    its lag. *)
Lemma tick_total_lag dt e w :
  clock (tick dt e w) + total_lag (tick dt e w) == clock w + dt + total_lag w.
Proof.
  unfold tick, total_lag, lag. simpl.
  destruct (lags w) as [| l ls]; simpl; ring.
Qed.

Lemma total_lag_nonneg w : flows_forward w -> 0 <= total_lag w.
Proof.
  unfold flows_forward, total_lag.
  induction (lags w) as [| l ls IH]; simpl; intros H; [lra |].
  inversion H; subst. specialize (IH ltac:(assumption)). lra.
Qed.

(** One call, made when the last request is not in the future, costs at
    most one interval on top of the lags it uses up. *)
Lemma rate_limit_call_cost R t0 w :
  (0 < R)%Z -> flows_forward w -> t0 <= clock w ->
  exists r w',
    run R t0 w = (Returned r, w') /\ flows_forward w' /\ r <= clock w' /\
    clock w' + total_lag w' <= clock w + 60 / inject_Z R + total_lag w.
Proof.
  intros HR Hw Ht0. pose proof (interval_pos R HR) as Hgap.
  destruct (rate_limit_call R t0 w HR Hw) as (r & w' & Hrun & Hw' & _ & _ & Hr).
  exists r, w'. repeat split; try assumption.
  assert (HR0 : R <> 0%Z) by lia.
  destruct (Qlt_le_dec (clock w - t0) (60 / inject_Z R)) as [Hlt | Hge].
  - rewrite (run_waits R t0 w HR0 Hlt) in Hrun. injection Hrun as _ <-.
    set (d := 60 / inject_Z R - (clock w - t0)).
    pose proof (tick_total_lag 0 (Time (clock w)) w) as T0.
    pose proof (tick_total_lag d (Sleep d) (entered w)) as T1.
    fold (entered w) in T0. fold (slept d w) in T1.
    match goal with
    | |- context [tick 0 ?e (slept d w)] =>
        pose proof (tick_total_lag 0 e (slept d w)) as T2
    end.
    subst d. lra.
  - rewrite (run_passes R t0 w HR0 Hge) in Hrun. injection Hrun as _ <-.
    pose proof (tick_total_lag 0 (Time (clock w)) w) as T0.
    fold (entered w) in T0.
    match goal with
    | |- context [tick 0 ?e (entered w)] =>
        pose proof (tick_total_lag 0 e (entered w)) as T1
    end.
    lra.
Qed.

Lemma usage_cost_invariant R n :
  (0 < R)%Z ->
  forall t0 w, flows_forward w -> t0 <= clock w ->
  exists ts w',
    run_usage R n t0 w = (Returned ts, w') /\ flows_forward w' /\
    clock w' + total_lag w' <=
      clock w + inject_Z (Z.of_nat n) * (60 / inject_Z R) + total_lag w.
Proof.
  intros HR. induction n as [| n IH]; intros t0 w Hw Ht0.
  - exists [], w. repeat split; [exact Hw |].
    change (inject_Z (Z.of_nat 0)) with 0. simpl clock. lra.
  - destruct (rate_limit_call_cost R t0 w HR Hw Ht0)
      as (r & w1 & Hrun & Hw1 & Hr & Hcost).
    destruct (IH r w1 Hw1 Hr) as (ts & w' & Hrest & Hw' & Hcost').
    exists (r :: ts), w'.
    unfold run_usage in *. unfold run in Hrun. cbn [usage].
    rewrite exec_bind, Hrun, exec_bind, Hrest. simpl exec.
    split; [reflexivity |]. split; [exact Hw' |].
    rewrite inject_Z_succ_nat.
    set (k := inject_Z (Z.of_nat n)) in *.
    set (g := 60 / inject_Z R) in *.
    setoid_replace ((k + 1) * g) with (k * g + g) by ring. lra.
Qed.


